(** * Agent loop, tool dispatcher and network transport of the Go agent (agent.go)

    A shallow embedding of [agent.go]:
    - the Anthropic SDK values the loop handles (response content blocks,
      message params, tool-result blocks) as inductive types;
    - [ExecuteTool] as a function returning its result block together with
      the log of tool functions it invoked;
    - the fan-in over the unbuffered result channel [ch] as a receive order
      chosen by a scheduler;
    - one iteration of the [for] loop of [Run] as a function over the loop
      state [takeInput]/[messages], with the external calls ([readInput],
      [Infer], [writeOutput]) as oracle values;
    - the network transport ([handleRequest], [readFromNetwork],
      [writeToNetwork]) as an interleaving of threads over three channels
      of capacity one. *)

From Stdlib Require Import String Ascii List Permutation Arith ZArith Lia Bool DecimalString.
Import ListNotations.
Open Scope string_scope.
Open Scope list_scope.

(* ------------------------------------------------------------------ *)
(** ** SDK values *)

(** A Go [error]; [Error e] is [e.Error()]. *)
Inductive error : Type := mkError (msg : string).

Definition Error (e : error) : string := match e with mkError m => m end.

(** [anthropic.ContentBlockUnion]: one block of a model response. Blocks
    other than text and tool use (thinking, server tool use, ...) are
    [OtherBlock]. *)
Inductive ContentBlockUnion : Type :=
| TextBlock (text : string)
| ToolUseBlock (id : string) (name : string) (input : string)
| OtherBlock (kind : string).

(** The [Text] field of the union: empty for non-text blocks. *)
Definition Text (b : ContentBlockUnion) : string :=
  match b with TextBlock t => t | _ => "" end.

(** [anthropic.Message]: the model's response. *)
Record Message : Type := { Content : list ContentBlockUnion }.

(** [anthropic.ContentBlockParamUnion]: a block of a transcript turn. *)
Inductive ContentBlockParamUnion : Type :=
| TextBlockParam (text : string)
| ToolUseBlockParam (id : string) (name : string) (input : string)
| ToolResultBlockParam (tool_use_id : string) (content : string) (is_error : bool)
| OtherBlockParam (kind : string).

Inductive Role : Type := User | Assistant.

(** [anthropic.MessageParam]: one turn of the transcript. *)
Record MessageParam : Type := { role : Role; params : list ContentBlockParamUnion }.

Definition NewTextBlock (s : string) : ContentBlockParamUnion := TextBlockParam s.

Definition NewToolResultBlock (id content : string) (isError : bool)
  : ContentBlockParamUnion := ToolResultBlockParam id content isError.

Definition NewUserMessage (bs : list ContentBlockParamUnion) : MessageParam :=
  {| role := User; params := bs |}.

Definition block_ToParam (b : ContentBlockUnion) : ContentBlockParamUnion :=
  match b with
  | TextBlock t => TextBlockParam t
  | ToolUseBlock i n inp => ToolUseBlockParam i n inp
  | OtherBlock k => OtherBlockParam k
  end.

(** [response.ToParam()]. *)
Definition ToParam (m : Message) : MessageParam :=
  {| role := Assistant; params := map block_ToParam (Content m) |}.

(** The call identifier a tool-result block carries. *)
Definition result_id (b : ContentBlockParamUnion) : option string :=
  match b with ToolResultBlockParam i _ _ => Some i | _ => None end.

(* ------------------------------------------------------------------ *)
(** ** Tools and [ExecuteTool] *)

(** [ToolDefinition]: [Function] returns [(result, err)]; [None] is a nil
    error. *)
Record ToolDefinition : Type := {
  Name : string;
  Description : string;
  InputSchema : string;
  Function : string -> string * option error
}.

(** The parts of [Agent] the loop reads. *)
Record Agent : Type := { agent_name : string; port : Z; tools : list ToolDefinition }.

(** [ExecuteTool toolID toolName toolInput]: the result block, and the log
    of the tool functions invoked (by name), in order. The lookup is the
    [for ... range a.tools] loop with [break] on the first name match. *)
Definition ExecuteTool (a : Agent) (toolID toolName toolInput : string)
  : ContentBlockParamUnion * list string :=
  match find (fun t => String.eqb (Name t) toolName) (tools a) with
  | None => (NewToolResultBlock toolID "Tool not found" true, [])
  | Some toolDef =>
      match Function toolDef toolInput with
      | (_, Some err) => (NewToolResultBlock toolID (Error err) true, [Name toolDef])
      | (result, None) => (NewToolResultBlock toolID result false, [Name toolDef])
      end
  end.

(* ------------------------------------------------------------------ *)
(** ** Fan-out / fan-in over the result channel *)

Fixpoint remove_nth {A} (i : nat) (l : list A) : list A :=
  match l, i with
  | [], _ => []
  | _ :: t, 0 => t
  | h :: t, S i' => h :: remove_nth i' t
  end.

(** [for i := 0; i < toolCount; i++ { toolResults = append(toolResults, <-ch) }]:
    each receive takes the result of one goroutine still pending; which one
    is up to the scheduler, whose choice is the next number of [sched]
    (taken modulo the number of pending goroutines). *)
Fixpoint recv_n {A} (n : nat) (sched : list nat) (pending : list A) : list A :=
  match n with
  | 0 => []
  | S n' =>
      let i := hd 0 sched mod length pending in
      match nth_error pending i with
      | Some x => x :: recv_n n' (tl sched) (remove_nth i pending)
      | None => []
      end
  end.

(** The tool-invocation requests of a response, in order:
    the [case anthropic.ToolUseBlock] arm of the [switch]. *)
Fixpoint tool_uses (c : list ContentBlockUnion) : list (string * string * string) :=
  match c with
  | [] => []
  | ToolUseBlock i n inp :: t => (i, n, inp) :: tool_uses t
  | _ :: t => tool_uses t
  end.

(* ------------------------------------------------------------------ *)
(** ** One iteration of the loop of [Run] *)

(** What the loop does, in order, as seen from outside. *)
Inductive event : Type :=
| EvRead                                   (* a.readInput() *)
| EvInfer (msgs : list MessageParam)       (* a.Infer(ctx, messages, tools) *)
| EvAppend (m : MessageParam)              (* messages = append(messages, m) *)
| EvSpawn (id name : string)               (* go func() { ... ExecuteTool ... } *)
| EvToolCall (name : string)               (* toolDef.Function(toolInput) *)
| EvWrite (s : string) (outcome : option error). (* a.writeOutput(s) *)

Record LoopState : Type := { takeInput : bool; messages : list MessageParam }.

Inductive outcome : Type :=
| Continue (st : LoopState)          (* next iteration of the for loop *)
| Returned (s : string) (e : error)  (* return "", err *)
| Panicked.                          (* index out of range *)

(** The external results one iteration consumes. *)
Record Oracle : Type := {
  o_read : string + error;                          (* readInput() *)
  o_infer : list MessageParam -> Message + error;   (* Infer(...) *)
  o_sched : list nat;                               (* receive order on ch *)
  o_write : string -> option error                  (* writeOutput(s) *)
}.

(** Lines 145-180: from appending the response to the end of the
    iteration. *)
Definition after_infer (a : Agent) (msgs : list MessageParam) (response : Message)
    (sched : list nat) (wr : string -> option error) : list event * outcome :=
  let msgs1 := msgs ++ [ToParam response] in
  let calls := tool_uses (Content response) in
  let spawned := map (fun '(i, n, inp) => EvSpawn i n) calls in
  let runs := map (fun '(i, n, inp) => ExecuteTool a i n inp) calls in
  let received := recv_n (length calls) sched runs in
  let toolResults := map fst received in
  let toolCalls := map EvToolCall (flat_map snd received) in
  let evs := EvAppend (ToParam response) :: spawned ++ toolCalls in
  match toolResults with
  | [] =>
      match Content response with
      | [] => (evs, Panicked)
      | b0 :: _ =>
          (* the error returned by writeOutput is discarded *)
          (evs ++ [EvWrite (Text b0) (wr (Text b0))],
           Continue {| takeInput := true; messages := msgs1 |})
      end
  | _ :: _ =>
      let m := NewUserMessage toolResults in
      (evs ++ [EvAppend m],
       Continue {| takeInput := false; messages := msgs1 ++ [m] |})
  end.

(** One iteration of [for { ... }] in [Run] (lines 129-180). *)
Definition step (a : Agent) (st : LoopState) (o : Oracle) : list event * outcome :=
  let read :=
    if takeInput st then
      match o_read o with
      | inr e => ([EvRead], inr e)
      | inl input =>
          let m := NewUserMessage [NewTextBlock input] in
          ([EvRead; EvAppend m], inl (messages st ++ [m]))
      end
    else ([], inl (messages st)) in
  match read with
  | (ev1, inr e) => (ev1, Returned "" e)
  | (ev1, inl msgs) =>
      match o_infer o msgs with
      | inr e => (ev1 ++ [EvInfer msgs], Returned "" e)
      | inl response =>
          let '(ev2, out) := after_infer a msgs response (o_sched o) (o_write o) in
          (ev1 ++ EvInfer msgs :: ev2, out)
      end
  end.

(** [Run]: the loop from [takeInput := true] and an empty transcript, run
    on one oracle per iteration; [None] when the oracles run out with the
    loop still going. *)
Fixpoint run_from (a : Agent) (st : LoopState) (os : list Oracle)
  : list event * option outcome :=
  match os with
  | [] => ([], None)
  | o :: os' =>
      let '(evs, out) := step a st o in
      match out with
      | Continue st' =>
          let '(evs', r) := run_from a st' os' in (evs ++ evs', r)
      | _ => (evs, Some out)
      end
  end.

Definition Run (a : Agent) (os : list Oracle) : list event * option outcome :=
  run_from a {| takeInput := true; messages := [] |} os.

(** The tool functions an event list shows invoked, in order. *)
Definition tool_calls_of (evs : list event) : list string :=
  flat_map (fun ev => match ev with EvToolCall n => [n] | _ => [] end) evs.

(** Whether some registered tool answers to [name]. *)
Definition registered (a : Agent) (name : string) : bool :=
  existsb (fun t => String.eqb (Name t) name) (tools a).

Definition Role_eqb (r1 r2 : Role) : bool :=
  match r1, r2 with User, User | Assistant, Assistant => true | _, _ => false end.

(** Turn [k] of a transcript that alternates, starting with the user. *)
Definition expected_role (k : nat) : Role := if Nat.even k then User else Assistant.

Fixpoint alternates_from (k : nat) (ms : list MessageParam) : bool :=
  match ms with
  | [] => true
  | m :: t => Role_eqb (role m) (expected_role k) && alternates_from (S k) t
  end.

(** What holds of the loop state at the top of every iteration: the
    transcript alternates, and its length is even exactly when the next
    iteration reads input. *)
Definition transcript_inv (st : LoopState) : Prop :=
  alternates_from 0 (messages st) = true /\ Nat.even (length (messages st)) = takeInput st.

(* ------------------------------------------------------------------ *)
(** ** Network transport: [handleRequest], [readFromNetwork], [writeToNetwork] *)

Module Transport.

(** What a response writer holds once written: status, [Content-Type]
    header, and the body, written as the loop's reply to request [body]. *)
Record Resp : Type := { status : nat; content_type : string; body : nat }.

(** What [writeToNetwork] writes for the reply to request [r]: header
    [Content-Type: text/plain], [http.StatusOK], then the text. *)
Definition reply (r : nat) : Resp :=
  {| status := 200; content_type := "text/plain"; body := r |}.

(** Program counter of the handler goroutine serving request [i] (with
    response writer [i]): before [a.requestChan <- r], before
    [a.responseChan <- w], blocked on [<-a.doneChan], returned (with what
    its writer held when it returned). Every request is a POST. *)
Inductive hpc : Type :=
| HNew
| HQueued
| HWaiting
| HReturned (sent : option Resp).

(** Program counter of the loop goroutine: in [readFromNetwork]; between
    reading request [r] and [writeToNetwork] (inference and tool rounds,
    which touch no channel); after [w.Write] in [writeToNetwork], before
    [a.doneChan <- true]; returned from [Run] on a body read error. *)
Inductive lpc : Type :=
| LRead
| LProcess (r : nat)
| LSignal (err : option error)
| LStopped (e : error).

Inductive label : Type :=
| LbRead (r : nat)                               (* readFromNetwork returns request r *)
| LbWrite (w : nat) (resp : Resp) (err : option error) (* w.Write in writeToNetwork *)
| LbDone                                         (* a.doneChan <- true *)
| LbReturn (i : nat) (sent : option Resp).       (* handler i returns *)

Record Sys : Type := {
  requestChan : list nat;
  responseChan : list nat;
  doneChan : list bool;
  handlers : list hpc;
  loop_pc : lpc;
  written : nat -> option Resp;
  trace : list label            (* most recent first *)
}.

(** [make(chan T, 1)] for all three channels in [NewAgent]. *)
Definition chan_cap : nat := 1.

(** Outcomes of the I/O the goroutines do: [io.ReadAll(req.Body)] for
    request [r], [w.Write] on writer [w]. *)
Record Env : Type := { body_err : nat -> option error; write_err : nat -> option error }.

Inductive thread : Type := TLoop | THandler (i : nat).

Definition init (n : nat) : Sys := {|
  requestChan := []; responseChan := []; doneChan := [];
  handlers := repeat HNew n; loop_pc := LRead;
  written := fun _ => None; trace := [] |}.

Fixpoint set_nth {A} (i : nat) (x : A) (l : list A) : list A :=
  match l, i with
  | [], _ => []
  | _ :: t, 0 => x :: t
  | h :: t, S i' => h :: set_nth i' x t
  end.

Definition set_handler (s : Sys) (i : nat) (h : hpc) (rq rs : list nat) (dn : list bool)
    (tr : list label) : Sys :=
  {| requestChan := rq; responseChan := rs; doneChan := dn;
     handlers := set_nth i h (handlers s); loop_pc := loop_pc s;
     written := written s; trace := tr |}.

Definition set_loop (s : Sys) (pc : lpc) (rq rs : list nat) (dn : list bool)
    (wr : nat -> option Resp) (tr : list label) : Sys :=
  {| requestChan := rq; responseChan := rs; doneChan := dn;
     handlers := handlers s; loop_pc := pc; written := wr; trace := tr |}.

(** One step of handler [i] ([handleRequest], lines 97-108); [None] when
    it is blocked or finished. *)
Definition step_handler (s : Sys) (i : nat) : option Sys :=
  match nth_error (handlers s) i with
  | Some HNew =>
      if Nat.ltb (length (requestChan s)) chan_cap
      then Some (set_handler s i HQueued (requestChan s ++ [i]) (responseChan s)
                   (doneChan s) (trace s))
      else None
  | Some HQueued =>
      if Nat.ltb (length (responseChan s)) chan_cap
      then Some (set_handler s i HWaiting (requestChan s) (responseChan s ++ [i])
                   (doneChan s) (trace s))
      else None
  | Some HWaiting =>
      match doneChan s with
      | _ :: rest =>
          Some (set_handler s i (HReturned (written s i)) (requestChan s) (responseChan s)
                  rest (LbReturn i (written s i) :: trace s))
      | [] => None
      end
  | _ => None
  end.

(** One step of the loop goroutine: [readFromNetwork] (lines 248-256,
    then [Run] returns on a read error), and [writeToNetwork] (lines
    265-275, whose returned error [Run] discards before reading again). *)
Definition step_loop (env : Env) (s : Sys) : option Sys :=
  match loop_pc s with
  | LRead =>
      match requestChan s with
      | r :: rest =>
          let pc := match body_err env r with Some e => LStopped e | None => LProcess r end in
          Some (set_loop s pc rest (responseChan s) (doneChan s) (written s)
                  (LbRead r :: trace s))
      | [] => None
      end
  | LProcess r =>
      match responseChan s with
      | w :: rest =>
          let resp := reply r in
          let err := write_err env w in
          Some (set_loop s (LSignal err) (requestChan s) rest (doneChan s)
                  (fun k => if Nat.eqb k w then Some resp else written s k)
                  (LbWrite w resp err :: trace s))
      | [] => None
      end
  | LSignal err =>
      if Nat.ltb (length (doneChan s)) chan_cap
      then Some (set_loop s LRead (requestChan s) (responseChan s) (doneChan s ++ [true])
                   (written s) (LbDone :: trace s))
      else None
  | LStopped _ => None
  end.

Definition step_thread (env : Env) (s : Sys) (t : thread) : option Sys :=
  match t with TLoop => step_loop env s | THandler i => step_handler s i end.

(** Run a schedule; a blocked thread's turn leaves the state unchanged. *)
Fixpoint run (env : Env) (s : Sys) (sched : list thread) : Sys :=
  match sched with
  | [] => s
  | t :: rest =>
      match step_thread env s t with
      | Some s' => run env s' rest
      | None => run env s rest
      end
  end.

(** The labels of the loop goroutine, most recent first. *)
Definition loop_labels (tr : list label) : list label :=
  filter (fun l => match l with LbReturn _ _ => false | _ => true end) tr.

(** Completed cycles of the loop, most recent first: read request [r],
    write the reply to [r] on some writer (with whatever outcome), raise
    the completion signal. *)
Inductive cycles : list label -> Prop :=
| cycles_nil : cycles []
| cycles_cons w r err ll :
    cycles ll -> cycles (LbDone :: LbWrite w (reply r) err :: LbRead r :: ll).

(** Where the loop goroutine stands in its current cycle. *)
Definition loop_inv (s : Sys) : Prop :=
  let ll := loop_labels (trace s) in
  match loop_pc s with
  | LRead => cycles ll
  | LProcess r => exists ll', ll = LbRead r :: ll' /\ cycles ll'
  | LSignal err =>
      exists w r ll', ll = LbWrite w (reply r) err :: LbRead r :: ll' /\ cycles ll' /\
                      written s w = Some (reply r)
  | LStopped _ => exists r ll', ll = LbRead r :: ll' /\ cycles ll'
  end.


(** Sample environments and schedules. *)
Definition env_ok : Env := {| body_err := fun _ => None; write_err := fun _ => None |}.

Definition env_write_fails : Env :=
  {| body_err := fun _ => None; write_err := fun _ => Some (mkError "broken pipe") |}.

(** Handler 0 queues its request and writer; the loop reads request 0 and
    writes its reply, stopping before the completion signal. *)
Definition one_request : list thread := [THandler 0; THandler 0; TLoop; TLoop].

(** Two POST requests arriving together. *)
Definition two_requests_race : list thread :=
  [THandler 0; THandler 0; TLoop; THandler 1; TLoop; THandler 1; TLoop; THandler 1;
   TLoop; TLoop; TLoop; THandler 0].

End Transport.

(* ------------------------------------------------------------------ *)
(** ** Go [strings] functions used by the tools (byte strings) *)

Module GoStrings.

(** The byte sequences [strings.TrimSpace] removes at either end: the six
    ASCII spaces of its fast path, and the UTF-8 encodings of the other
    runes [unicode.IsSpace] accepts (U+0085, U+00A0, U+1680,
    U+2000-U+200A, U+2028, U+2029, U+202F, U+205F, U+3000). An invalid
    byte decodes as [RuneError], which is not a space. *)
Definition space_seqs : list (list ascii) :=
  map (map ascii_of_nat)
    ([[9]; [10]; [11]; [12]; [13]; [32]; [194; 133]; [194; 160]; [225; 154; 128]] ++
     map (fun k => [226; 128; 128 + k]) (seq 0 11) ++
     [[226; 128; 168]; [226; 128; 169]; [226; 128; 175]; [226; 129; 159];
      [227; 128; 128]]).

Fixpoint is_prefix (p l : list ascii) : bool :=
  match p, l with
  | [], _ => true
  | x :: p', y :: l' => Ascii.eqb x y && is_prefix p' l'
  | _ :: _, [] => false
  end.

(** Length of the space rune [l] starts with, if any ([seqs] holds the
    encodings, reversed ones when trimming from the right). *)
Definition lead_space (seqs : list (list ascii)) (l : list ascii) : option nat :=
  match find (fun e => is_prefix e l) seqs with
  | Some e => Some (List.length e)
  | None => None
  end.

Fixpoint trim_lead (seqs : list (list ascii)) (fuel : nat) (l : list ascii) : list ascii :=
  match fuel with
  | 0 => l
  | S f =>
      match lead_space seqs l with
      | Some k => trim_lead seqs f (skipn k l)
      | None => l
      end
  end.

(** [strings.TrimSpace]: drop leading then trailing space runes. *)
Definition trim_bytes (l : list ascii) : list ascii :=
  let l1 := trim_lead space_seqs (List.length l) l in
  rev (trim_lead (map (@rev ascii) space_seqs) (List.length l1) (rev l1)).

Definition TrimSpace (s : string) : string :=
  string_of_list_ascii (trim_bytes (list_ascii_of_string s)).



End GoStrings.

(* ------------------------------------------------------------------ *)
(** ** coder_agent.go *)

Module Coder.
Import GoStrings.

(** [os.FileMode] bits read by [formatPermissions]. *)
Definition ModeDir : Z := Z.shiftl 1 31.
Definition ModeSymlink : Z := Z.shiftl 1 27.

Definition bit_char (mode mask : Z) (c : ascii) : ascii :=
  if negb (Z.land mode mask =? 0)%Z then c else "-"%char.

(** [formatPermissions]: the ten runes it writes, in order. *)
Definition formatPermissions (mode : Z) : string :=
  string_of_list_ascii
    [ if negb (Z.land mode ModeDir =? 0)%Z then "d"%char
      else if negb (Z.land mode ModeSymlink =? 0)%Z then "l"%char
      else "-"%char;
      bit_char mode 256 "r"; bit_char mode 128 "w"; bit_char mode 64 "x";
      bit_char mode 32 "r"; bit_char mode 16 "w"; bit_char mode 8 "x";
      bit_char mode 4 "r"; bit_char mode 2 "w"; bit_char mode 1 "x" ]%char.

(** Reading the nine permission runes back as bits (owner read first). *)
Definition perm_value (s : string) : Z :=
  fold_left (fun acc c => (2 * acc + if Ascii.eqb c "-"%char then 0 else 1)%Z)
    (tl (list_ascii_of_string s)) 0%Z.

(** The unit loop of [formatSize] (lines 244-248) for [size >= unit]:
    [for n := size / unit; n >= unit; n /= unit { div *= unit; exp++ }].
    The fuel is one more than [log2 n], which every iteration lowers by
    ten, so the loop always exits before the fuel runs out. *)
Fixpoint unit_loop (fuel : nat) (n div : Z) (exp : nat) : Z * nat :=
  match fuel with
  | 0 => (div, exp)
  | S f =>
      if (1024 <=? n)%Z then unit_loop f (Z.quot n 1024) (div * 1024) (S exp)
      else (div, exp)
  end.

Definition formatSize_unit (size : Z) : Z * nat :=
  unit_loop (S (Z.to_nat (Z.log2 (Z.quot size 1024)))) (Z.quot size 1024) 1024 0.

(** [formatSize]. The [%.1f] rendering of [float64(size)/float64(div)]
    is floating point and is left to [fmt_float1 size div]; the [%d]
    branch, the unit loop and the index into ["KMGTPE"] (which panics out
    of range: [None]) are as in the source. *)
Definition formatSize (fmt_float1 : Z -> Z -> string) (size : Z) : option string :=
  if (size <? 1024)%Z then Some (DecimalString.NilZero.string_of_int (Z.to_int size))
  else
    let '(div, exp) := formatSize_unit size in
    match String.get exp "KMGTPE" with
    | Some c => Some (fmt_float1 size div ++ String c "")%string
    | None => None
    end.

(** [bufio.Reader.ReadString('\n')] on what stdin still holds: the line
    with its newline, or everything left together with [io.EOF]. *)
Definition EOF : error := mkError "EOF".

Fixpoint ReadString (s : string) : string * string * option error :=
  match s with
  | EmptyString => ("", "", Some EOF)
  | String c t =>
      if Ascii.eqb c "010"%char then (String c "", t, None)
      else let '(line, rest, err) := ReadString t in (String c line, rest, err)
  end.

(** [readFromCli]: [strings.TrimSpace(input), err]; also returns what is
    left on stdin. *)
Definition readFromCli (stdin : string) : (string * option error) * string :=
  let '(input, rest, err) := ReadString stdin in ((TrimSpace input, err), rest).

(** How [Run] consumes [readInput]'s pair: [if err != nil { return "", err }]. *)
Definition go_result (r : string * option error) : string + error :=
  match r with (_, Some e) => inr e | (s, None) => inl s end.

(** [Run] on [NewAgent(..., readFromCli, writeToCli, ...)]: each iteration
    that takes input reads the next line of stdin. *)
Fixpoint run_cli (a : Agent) (stdin : string) (st : LoopState)
    (os : list (list MessageParam -> Message + error)) : list event * option outcome :=
  match os with
  | [] => ([], None)
  | inf :: os' =>
      let '(r, rest) := readFromCli stdin in
      let o := {| o_read := go_result r; o_infer := inf; o_sched := [];
                  o_write := fun _ => None |} in
      let stdin' := if takeInput st then rest else stdin in
      let '(evs, out) := step a st o in
      match out with
      | Continue st' => let '(evs', res) := run_cli a stdin' st' os' in (evs ++ evs', res)
      | _ => (evs, Some out)
      end
  end.

(** The registered tool sets. The tool functions do I/O (files, HTTP), so
    they are given as [impl name]; [schema name] is what the generic
    [GenerateSchema] (not part of these sources) produces. *)
Section Tools.
Variable impl : string -> string -> string * option error.
Variable schema : string -> string.

Definition mk_tool (name descr : string) : ToolDefinition :=
  {| Name := name; Description := descr; InputSchema := schema name; Function := impl name |}.

Definition ReadFileDefinition := mk_tool "read_file"
  "Read the contents of a file. Use this when you want to see what is inside a file.".
Definition WriteFileDefinition := mk_tool "write_file"
  "Write content to a file. Use this when you need to create or modify files. The file will be created if it doesn't exist, or overwritten if it does.".
Definition ListFilesDefinition := mk_tool "list_files"
  "List all files and directories in a specified path (equivalent to ls -la). Use this to explore the file system structure.".
Definition ExecuteCommandDefinition := mk_tool "execute_command"
  "Execute a shell command and return the output. Use this when you need to run terminal commands.".
Definition InvokeDocumentationAgentDefinition := mk_tool "invoke_documentation_agent"
  "Invoke the documentation agent to search for information. Use this when you need to find documentation for a specific package or function.".
Definition SearchGoDocumentationDefinition := mk_tool "search_go_documentation"
  "Search Go documentation for information. Use this when you need to find Go language features, standard library functions, or Go-specific information. Call this function with the name of the package you want to search for.".

(** [CoderTools] (coder_agent.go) and [DocTools] (documentation_agent.go). *)
Definition CoderTools : list ToolDefinition :=
  [ReadFileDefinition; WriteFileDefinition; ListFilesDefinition;
   InvokeDocumentationAgentDefinition].
Definition DocTools : list ToolDefinition := [SearchGoDocumentationDefinition].

(** [NewCoderAgent] and [NewDocAgent] (agent.go), as far as [Run] reads
    them. *)
Definition NewCoderAgent : Agent := {| agent_name := "coder"; port := 8080%Z; tools := CoderTools |}.
Definition NewDocAgent : Agent := {| agent_name := "doc"; port := 8081%Z; tools := DocTools |}.
End Tools.








End Coder.

(* ------------------------------------------------------------------ *)
(** ** Counting transport events *)

Module TransportCount.
Import Transport.





End TransportCount.

(* ------------------------------------------------------------------ *)
(** ** Sample values *)

Definition read_file_tool : ToolDefinition := {|
  Name := "read_file"; Description := "Read a file"; InputSchema := "{path}";
  Function := fun inp =>
    if String.eqb inp "go.mod" then ("module agent", None)
    else ("", Some (mkError "open: no such file or directory")) |}.

Definition list_files_tool : ToolDefinition := {|
  Name := "list_files"; Description := "List files"; InputSchema := "{path}";
  Function := fun _ => ("go.mod agent.go", None) |}.

Definition coder : Agent :=
  {| agent_name := "coder"; port := 8080%Z; tools := [read_file_tool; list_files_tool] |}.

Definition two_calls : Message :=
  {| Content := [TextBlock "Reading"; ToolUseBlock "t1" "list_files" ".";
                 ToolUseBlock "t2" "read_file" "go.mod"] |}.

Definition tool_turn_oracle : Oracle := {|
  o_read := inl "list the files";
  o_infer := fun _ => inl two_calls;
  o_sched := [0; 0];
  o_write := fun _ => None |}.

Definition missing_file_call : Message :=
  {| Content := [ToolUseBlock "t3" "read_file" "missing.txt"] |}.

Definition model_down_oracle : Oracle := {|
  o_read := inl "hello";
  o_infer := fun _ => inr (mkError "529 overloaded");
  o_sched := [];
  o_write := fun _ => None |}.

Definition read_fail_oracle : Oracle := {|
  o_read := inr (mkError "failed to read request body: EOF");
  o_infer := fun _ => inl two_calls;
  o_sched := [];
  o_write := fun _ => None |}.

Definition done_oracle : Oracle := {|
  o_read := inl "unused";
  o_infer := fun _ => inl {| Content := [TextBlock "Done"] |};
  o_sched := [];
  o_write := fun _ => None |}.

Definition shadowed_read_file : ToolDefinition := {|
  Name := "read_file"; Description := "shadowed"; InputSchema := "{}";
  Function := fun _ => ("never", None) |}.

Definition coder_shadowed : Agent :=
  {| agent_name := "coder"; port := 8080%Z;
     tools := [list_files_tool; read_file_tool; shadowed_read_file] |}.

(** ** Sample runs *)

Example after_infer_two_calls :
  snd (after_infer coder [] two_calls [1] (fun _ => None))
  = Continue {| takeInput := false;
                messages := [ToParam two_calls;
                             NewUserMessage
                               [ToolResultBlockParam "t2" "module agent" false;
                                ToolResultBlockParam "t1" "go.mod agent.go" false]] |}.
Proof. reflexivity. Qed.

Example after_infer_two_texts :
  after_infer coder [] {| Content := [TextBlock "first"; TextBlock "second"] |} []
    (fun _ => None)
  = ([EvAppend (ToParam {| Content := [TextBlock "first"; TextBlock "second"] |});
      EvWrite "first" None],
     Continue {| takeInput := true;
                 messages := [ToParam {| Content := [TextBlock "first"; TextBlock "second"] |}] |}).
Proof. reflexivity. Qed.

(* ------------------------------------------------------------------ *)
(** ** Fan-in: the receive loop collects a permutation of the results *)

Lemma remove_nth_perm {A} (l : list A) : forall i x,
  nth_error l i = Some x -> Permutation l (x :: remove_nth i l).
Proof.
  induction l as [|h t IH]; intros [|i] x Hx; simpl in *; try discriminate.
  - injection Hx as <-. reflexivity.
  - specialize (IH i x Hx).
    transitivity (h :: x :: remove_nth i t); [now constructor|constructor].
Qed.

Lemma recv_n_perm {A} : forall n sched (pending : list A),
  length pending = n -> Permutation (recv_n n sched pending) pending.
Proof.
  induction n as [|n IH]; intros sched pending Hlen.
  - destruct pending; [reflexivity|discriminate].
  - simpl. rewrite Hlen.
    destruct (nth_error pending (hd 0 sched mod S n)) as [x|] eqn:Hx.
    + pose proof (remove_nth_perm pending _ _ Hx) as Hp.
      symmetry. rewrite Hp at 1. constructor. symmetry. apply IH.
      apply Permutation_length in Hp. cbn [length] in Hp. lia.
    + exfalso. apply nth_error_None in Hx.
      pose proof (Nat.mod_upper_bound (hd 0 sched) (S n)). lia.
Qed.

Lemma ExecuteTool_id a i n inp : result_id (fst (ExecuteTool a i n inp)) = Some i.
Proof.
  unfold ExecuteTool.
  destruct (find _ _) as [t|]; [destruct (Function t inp) as [r [e|]]|]; reflexivity.
Qed.

(** The tool-bearing branch of [after_infer]: the fed-back turn holds the
    received results, a permutation of one [ExecuteTool] result per
    request. *)
Lemma after_infer_tools a msgs response sched wr :
  tool_uses (Content response) <> [] ->
  exists rs mid,
    after_infer a msgs response sched wr
    = (EvAppend (ToParam response) :: mid ++ [EvAppend (NewUserMessage rs)],
       Continue {| takeInput := false;
                   messages := msgs ++ [ToParam response; NewUserMessage rs] |}) /\
    Permutation rs
      (map (fun '(i, n, inp) => fst (ExecuteTool a i n inp)) (tool_uses (Content response))) /\
    Forall (fun ev => forall m, ev <> EvAppend m) mid.
Proof.
  intros Hne. unfold after_infer.
  set (calls := tool_uses (Content response)) in *.
  set (runs := map (fun '(i, n, inp) => ExecuteTool a i n inp) calls).
  assert (Hp : Permutation (recv_n (length calls) sched runs) runs)
    by (apply recv_n_perm; unfold runs; apply length_map).
  assert (Hpm : Permutation (map fst (recv_n (length calls) sched runs))
             (map (fun '(i, n, inp) => fst (ExecuteTool a i n inp)) calls)).
  { rewrite (Permutation_map fst Hp). unfold runs. rewrite map_map.
    apply Permutation_refl'. apply map_ext. intros [[? ?] ?]. reflexivity. }
  destruct (map fst (recv_n (length calls) sched runs)) as [|r rs] eqn:Hrs.
  - exfalso. apply Permutation_nil in Hpm. apply map_eq_nil in Hpm. contradiction.
  - eexists (r :: rs), _. split; [rewrite <- app_assoc; reflexivity|].
    split; [exact Hpm|].
    apply Forall_app. split.
    + apply Forall_forall. intros ev Hin. apply in_map_iff in Hin.
      destruct Hin as [[[? ?] ?] [<- _]]. discriminate.
    + apply Forall_forall. intros ev Hin. apply in_map_iff in Hin.
      destruct Hin as [? [<- _]]. discriminate.
Qed.

(** The zero-tool branch of [after_infer]. *)
Lemma after_infer_no_tools a msgs response sched wr :
  tool_uses (Content response) = [] ->
  after_infer a msgs response sched wr
  = match Content response with
    | [] => ([EvAppend (ToParam response)], Panicked)
    | b0 :: _ =>
        ([EvAppend (ToParam response); EvWrite (Text b0) (wr (Text b0))],
         Continue {| takeInput := true; messages := msgs ++ [ToParam response] |})
    end.
Proof.
  intros H. unfold after_infer. rewrite H. simpl.
  destruct (Content response); reflexivity.
Qed.

Lemma find_name_none (ts : list ToolDefinition) name :
  ~ In name (map Name ts) -> find (fun t => String.eqb (Name t) name) ts = None.
Proof.
  induction ts as [|t ts IH]; simpl; intros Hn; [reflexivity|].
  destruct (String.eqb_spec (Name t) name) as [E|E]; [tauto|].
  apply IH. tauto.
Qed.

(** Case analysis on membership in a list built from [++], [::] and [map]
    of event constructors other than the one looked for. *)
Ltac split_in H :=
  repeat match type of H with
  | In _ (_ ++ _) => apply in_app_or in H; destruct H as [H|H]
  | In _ (_ :: _) => destruct H as [H|H]; [try discriminate H|]
  | In _ [] => destruct H
  | In _ (map _ _) =>
      let x := fresh "x" in
      apply in_map_iff in H; destruct H as [x [H _]];
      try (destruct x as [[? ?] ?]); discriminate H
  end.

(** Events of the part after [Infer]: appends, spawns, tool calls and
    writes only. *)
Lemma after_infer_no_read a msgs response sched wr :
  ~ In EvRead (fst (after_infer a msgs response sched wr)).
Proof.
  unfold after_infer. cbv zeta.
  destruct (map fst _); [destruct (Content response)|]; cbn [fst]; intros H;
    split_in H.
Qed.

Lemma after_infer_prefix a msgs response sched wr :
  match snd (after_infer a msgs response sched wr) with
  | Continue st' => exists added, messages st' = msgs ++ added
  | _ => True
  end.
Proof.
  unfold after_infer. cbv zeta.
  destruct (map fst _).
  - destruct (Content response); cbn; [exact I|]. eexists. reflexivity.
  - cbn. eexists. rewrite <- app_assoc. reflexivity.
Qed.

Lemma step_prefix a st o :
  match snd (step a st o) with
  | Continue st' => exists added, messages st' = messages st ++ added
  | _ => True
  end.
Proof.
  unfold step.
  destruct (takeInput st); [destruct (o_read o) as [input|e]|]; cbn; try exact I.
  - destruct (o_infer o _) as [resp|e]; cbn; [|exact I].
    pose proof (after_infer_prefix a (messages st ++ [NewUserMessage [NewTextBlock input]])
                  resp (o_sched o) (o_write o)) as H.
    destruct (after_infer _ _ _ _ _) as [ev2 [st'| |]]; cbn in *; try exact I.
    destruct H as [added ->]. eexists. rewrite <- app_assoc. reflexivity.
  - destruct (o_infer o _) as [resp|e]; cbn; [|exact I].
    pose proof (after_infer_prefix a (messages st) resp (o_sched o) (o_write o)) as H.
    destruct (after_infer _ _ _ _ _) as [ev2 [st'| |]]; cbn in *; exact H.
Qed.

(* ------------------------------------------------------------------ *)
(** ** Claims about the loop *)

(** C1: after a model turn with one or more tool-invocation requests, the
    turn fed back holds exactly one result per request: the call
    identifiers of the fed-back results are a permutation of those of the
    requests; and every result [ExecuteTool] returns carries the call
    identifier it was given. *)
Theorem results_match_requests a msgs response sched wr :
  tool_uses (Content response) <> [] ->
  (exists rs,
     snd (after_infer a msgs response sched wr)
     = Continue {| takeInput := false;
                   messages := msgs ++ [ToParam response; NewUserMessage rs] |} /\
     Permutation (map result_id rs)
       (map (fun '(i, _, _) => Some i) (tool_uses (Content response)))) /\
  (forall i n inp, result_id (fst (ExecuteTool a i n inp)) = Some i).
Proof.
  intros Hne. split; [|apply ExecuteTool_id].
  destruct (after_infer_tools a msgs response sched wr Hne) as (rs & mid & Ha & Hp & _).
  exists rs. rewrite Ha. split; [reflexivity|].
  rewrite (Permutation_map result_id Hp), map_map.
  apply Permutation_refl'. apply map_ext. intros [[i n] inp]. apply ExecuteTool_id.
Qed.

Lemma results_match_requests_witness :
  tool_uses (Content two_calls) <> [] /\
  (exists rs,
     snd (after_infer coder [] two_calls [1] (fun _ => None))
     = Continue {| takeInput := false;
                   messages := [] ++ [ToParam two_calls; NewUserMessage rs] |} /\
     Permutation (map result_id rs)
       (map (fun '(i, _, _) => Some i) (tool_uses (Content two_calls)))) /\
  (forall i n inp, result_id (fst (ExecuteTool coder i n inp)) = Some i).
Proof.
  assert (H : tool_uses (Content two_calls) <> []) by discriminate.
  split; [exact H|].
  exact (results_match_requests coder [] two_calls [1] (fun _ => None) H).
Defined.

(** C2: for a model response with no tool-invocation requests, the loop
    spawns no tool execution and invokes no tool; it appends the response
    turn, emits the [Text] of the first content block only, and sets
    [takeInput] (with no first block, the index panics: see C10). *)
Theorem zero_tools_emit_first_text a msgs response sched wr :
  tool_uses (Content response) = [] ->
  after_infer a msgs response sched wr
  = match Content response with
    | [] => ([EvAppend (ToParam response)], Panicked)
    | b0 :: _ =>
        ([EvAppend (ToParam response); EvWrite (Text b0) (wr (Text b0))],
         Continue {| takeInput := true; messages := msgs ++ [ToParam response] |})
    end.
Proof. apply after_infer_no_tools. Qed.

Lemma zero_tools_emit_first_text_witness :
  tool_uses (Content {| Content := [TextBlock "first"; TextBlock "second"] |}) = [] /\
  after_infer coder [] {| Content := [TextBlock "first"; TextBlock "second"] |} []
    (fun _ => None)
  = ([EvAppend (ToParam {| Content := [TextBlock "first"; TextBlock "second"] |});
      EvWrite "first" None],
     Continue {| takeInput := true;
                 messages := [] ++ [ToParam {| Content := [TextBlock "first"; TextBlock "second"] |}] |}).
Proof.
  split; [reflexivity|].
  exact (zero_tools_emit_first_text coder [] {| Content := [TextBlock "first"; TextBlock "second"] |}
           [] (fun _ => None) eq_refl).
Defined.

(** C3: for a tool name not in the agent's tool set, [ExecuteTool] returns
    a failed result with the message "Tool not found" and the call
    identifier it was given, and invokes no tool function. *)
Theorem unknown_tool_not_found a toolID toolName toolInput :
  ~ In toolName (map Name (tools a)) ->
  ExecuteTool a toolID toolName toolInput
  = (ToolResultBlockParam toolID "Tool not found" true, []).
Proof.
  intros Hn. unfold ExecuteTool. rewrite (find_name_none _ _ Hn). reflexivity.
Qed.

Lemma unknown_tool_not_found_witness :
  ~ In "delete_everything" (map Name (tools coder)) /\
  ExecuteTool coder "t9" "delete_everything" "{}"
  = (ToolResultBlockParam "t9" "Tool not found" true, []).
Proof.
  assert (H : ~ In "delete_everything" (map Name (tools coder))).
  { cbn. intros [H|[H|H]]; [discriminate|discriminate|exact H]. }
  split; [exact H|].
  exact (unknown_tool_not_found coder "t9" "delete_everything" "{}" H).
Defined.

Lemma after_infer_takeInput a msgs response sched wr :
  match snd (after_infer a msgs response sched wr) with
  | Continue st' =>
      takeInput st' = match tool_uses (Content response) with [] => true | _ => false end
  | _ => True
  end.
Proof.
  destruct (tool_uses (Content response)) eqn:Ht.
  - rewrite (after_infer_no_tools _ _ _ _ _ Ht).
    destruct (Content response); reflexivity.
  - assert (Hne : tool_uses (Content response) <> []) by (rewrite Ht; discriminate).
    destruct (after_infer_tools a msgs response sched wr Hne) as (rs & mid & -> & _).
    reflexivity.
Qed.

Lemma after_infer_first_event a msgs response sched wr :
  exists rest, fst (after_infer a msgs response sched wr) = EvAppend (ToParam response) :: rest.
Proof.
  unfold after_infer. cbv zeta.
  destruct (map fst _); [destruct (Content response)|]; cbn; eexists; reflexivity.
Qed.

Lemma In_tool_uses c i n inp :
  In (ToolUseBlock i n inp) c -> In (i, n, inp) (tool_uses c).
Proof.
  induction c as [|b c IH]; [intros []|].
  intros [E|H].
  - subst b. left. reflexivity.
  - destruct b; cbn; [|right|]; auto.
Qed.

(** C4: an iteration reads input exactly when [takeInput] is set, and
    otherwise starts by calling the model on the unchanged transcript; the
    iteration leaves [takeInput] set exactly when the response it got had
    no tool-invocation request (it emitted), and cleared when tool results
    were fed back. *)
Theorem take_input_iff_emitted a st o :
  (takeInput st = true -> hd_error (fst (step a st o)) = Some EvRead) /\
  (takeInput st = false ->
     ~ In EvRead (fst (step a st o)) /\
     exists evs, fst (step a st o) = EvInfer (messages st) :: evs) /\
  match snd (step a st o) with
  | Continue st' =>
      exists msgs response,
        o_infer o msgs = inl response /\ In (EvInfer msgs) (fst (step a st o)) /\
        takeInput st' = match tool_uses (Content response) with [] => true | _ => false end
  | _ => True
  end.
Proof.
  unfold step.
  destruct (takeInput st) eqn:Hti; [destruct (o_read o) as [input|e]|].
  - split; [|split; [discriminate|]].
    + destruct (o_infer o _); [destruct (after_infer _ _ _ _ _)|]; reflexivity.
    + destruct (o_infer o _) as [resp|e] eqn:Hi; cbn; [|exact I].
      pose proof (after_infer_takeInput a (messages st ++ [NewUserMessage [NewTextBlock input]])
                    resp (o_sched o) (o_write o)) as H.
      destruct (after_infer _ _ _ _ _) as [ev2 [st'| |]]; cbn in *; try exact I.
      do 2 eexists. split; [exact Hi|]. split; [|exact H].
      right. right. left. reflexivity.
  - split; [reflexivity|]. split; [discriminate|]. exact I.
  - split; [discriminate|]. split.
    + intros _. destruct (o_infer o _) as [resp|e]; cbn.
      * pose proof (after_infer_no_read a (messages st) resp (o_sched o) (o_write o)) as H.
        destruct (after_infer _ _ _ _ _) as [ev2 out]. cbn in *.
        split; [intros [E|E]; [discriminate|contradiction]|eexists; reflexivity].
      * split; [intros [E|E]; [discriminate|contradiction]|eexists; reflexivity].
    + destruct (o_infer o _) as [resp|e] eqn:Hi; cbn; [|exact I].
      pose proof (after_infer_takeInput a (messages st) resp (o_sched o) (o_write o)) as H.
      destruct (after_infer _ _ _ _ _) as [ev2 [st'| |]]; cbn in *; try exact I.
      do 2 eexists. split; [exact Hi|]. split; [left; reflexivity|exact H].
Qed.

Lemma take_input_iff_emitted_witness :
  hd_error (fst (step coder {| takeInput := true; messages := [] |} tool_turn_oracle))
    = Some EvRead /\
  (~ In EvRead (fst (step coder {| takeInput := false; messages := [] |} tool_turn_oracle)) /\
   exists evs, fst (step coder {| takeInput := false; messages := [] |} tool_turn_oracle)
               = EvInfer [] :: evs).
Proof.
  split.
  - exact (proj1 (take_input_iff_emitted coder {| takeInput := true; messages := [] |}
                    tool_turn_oracle) eq_refl).
  - exact (proj1 (proj2 (take_input_iff_emitted coder {| takeInput := false; messages := [] |}
                           tool_turn_oracle)) eq_refl).
Defined.

(** C6: a tool function returning an error is not fatal: its call's
    result is a failed result carrying the error's message, it is fed back
    in the tool-result turn, and the iteration continues (with
    [takeInput] cleared, so the next iteration calls the model again). *)
Theorem tool_error_fed_back a msgs response sched wr i n inp t r err :
  In (ToolUseBlock i n inp) (Content response) ->
  find (fun t => String.eqb (Name t) n) (tools a) = Some t ->
  Function t inp = (r, Some err) ->
  exists rs,
    snd (after_infer a msgs response sched wr)
    = Continue {| takeInput := false;
                  messages := msgs ++ [ToParam response; NewUserMessage rs] |} /\
    In (ToolResultBlockParam i (Error err) true) rs.
Proof.
  intros Hin Hf Hfun.
  apply In_tool_uses in Hin.
  assert (Hne : tool_uses (Content response) <> []) by (intros E; rewrite E in Hin; exact Hin).
  destruct (after_infer_tools a msgs response sched wr Hne) as (rs & mid & -> & Hp & _).
  exists rs. split; [reflexivity|].
  apply (Permutation_in _ (Permutation_sym Hp)).
  apply in_map_iff. exists (i, n, inp). split; [|exact Hin].
  unfold ExecuteTool. rewrite Hf, Hfun. reflexivity.
Qed.

Lemma tool_error_fed_back_witness :
  exists rs,
    snd (after_infer coder [] missing_file_call [] (fun _ => None))
    = Continue {| takeInput := false;
                  messages := [] ++ [ToParam missing_file_call; NewUserMessage rs] |} /\
    In (ToolResultBlockParam "t3" (Error (mkError "open: no such file or directory")) true) rs.
Proof.
  apply (tool_error_fed_back coder [] missing_file_call [] (fun _ => None)
           "t3" "read_file" "missing.txt" read_file_tool "").
  - left. reflexivity.
  - reflexivity.
  - reflexivity.
Defined.

(** C7: a failure of [readInput] or of [Infer] ends [Run] at once: it
    returns [""] with that error, after no further event, whatever the
    remaining iterations would have brought. *)
Theorem read_or_infer_error_fatal a st o os e :
  (takeInput st = true -> o_read o = inr e ->
     run_from a st (o :: os) = ([EvRead], Some (Returned "" e))) /\
  (takeInput st = false -> o_infer o (messages st) = inr e ->
     run_from a st (o :: os) = ([EvInfer (messages st)], Some (Returned "" e))) /\
  (forall input, takeInput st = true -> o_read o = inl input ->
     o_infer o (messages st ++ [NewUserMessage [NewTextBlock input]]) = inr e ->
     run_from a st (o :: os)
     = ([EvRead; EvAppend (NewUserMessage [NewTextBlock input]);
         EvInfer (messages st ++ [NewUserMessage [NewTextBlock input]])],
        Some (Returned "" e))).
Proof.
  split; [|split].
  - intros Ht Hr. cbn. unfold step. rewrite Ht, Hr. reflexivity.
  - intros Ht Hi. cbn. unfold step. rewrite Ht, Hi. reflexivity.
  - intros input Ht Hr Hi. cbn. unfold step. rewrite Ht, Hr. cbn. rewrite Hi. reflexivity.
Qed.

Lemma read_or_infer_error_fatal_witness :
  Run coder [read_fail_oracle; tool_turn_oracle]
    = ([EvRead], Some (Returned "" (mkError "failed to read request body: EOF"))) /\
  Run coder [model_down_oracle; tool_turn_oracle]
    = ([EvRead; EvAppend (NewUserMessage [NewTextBlock "hello"]);
        EvInfer ([] ++ [NewUserMessage [NewTextBlock "hello"]])],
       Some (Returned "" (mkError "529 overloaded"))).
Proof.
  split.
  - exact (proj1 (read_or_infer_error_fatal coder {| takeInput := true; messages := [] |}
                    read_fail_oracle [tool_turn_oracle]
                    (mkError "failed to read request body: EOF")) eq_refl eq_refl).
  - exact (proj2 (proj2 (read_or_infer_error_fatal coder {| takeInput := true; messages := [] |}
                           model_down_oracle [tool_turn_oracle] (mkError "529 overloaded")))
             "hello" eq_refl eq_refl eq_refl).
Defined.

(** C8: the transcript only grows: an iteration that continues leaves the
    previous turns as a prefix of the new transcript; the model's response
    turn is appended first, before any tool is spawned; and when tool
    results are fed back their turn is the one appended next, right after
    the response turn, with no other append in between. *)
Theorem transcript_append_only a st o msgs response sched wr :
  (match snd (step a st o) with
   | Continue st' => exists added, messages st' = messages st ++ added
   | _ => True
   end) /\
  (exists rest, fst (after_infer a msgs response sched wr) = EvAppend (ToParam response) :: rest) /\
  (tool_uses (Content response) <> [] ->
   exists mid rs,
     after_infer a msgs response sched wr
     = (EvAppend (ToParam response) :: mid ++ [EvAppend (NewUserMessage rs)],
        Continue {| takeInput := false;
                    messages := msgs ++ [ToParam response; NewUserMessage rs] |}) /\
     Forall (fun ev => forall m, ev <> EvAppend m) mid).
Proof.
  split; [apply step_prefix|]. split; [apply after_infer_first_event|].
  intros Hne.
  destruct (after_infer_tools a msgs response sched wr Hne) as (rs & mid & Ha & _ & Hm).
  exists mid, rs. split; assumption.
Qed.

Lemma transcript_append_only_witness :
  exists mid rs,
    after_infer coder [] two_calls [1] (fun _ => None)
    = (EvAppend (ToParam two_calls) :: mid ++ [EvAppend (NewUserMessage rs)],
       Continue {| takeInput := false;
                   messages := [] ++ [ToParam two_calls; NewUserMessage rs] |}) /\
    Forall (fun ev => forall m, ev <> EvAppend m) mid.
Proof.
  apply (proj2 (proj2 (transcript_append_only coder {| takeInput := true; messages := [] |}
                         tool_turn_oracle [] two_calls [1] (fun _ => None)))).
  discriminate.
Defined.

(** C10: in the emitting branch the loop reads [response.Content[0]]
    unguarded: a response with no tool-invocation request panics exactly
    when its content list is empty. *)
Theorem empty_content_panics a msgs response sched wr :
  tool_uses (Content response) = [] ->
  (snd (after_infer a msgs response sched wr) = Panicked <-> Content response = []).
Proof.
  intros H. rewrite (after_infer_no_tools _ _ _ _ _ H).
  destruct (Content response); cbn; split; congruence.
Qed.

Lemma empty_content_panics_witness :
  snd (after_infer coder [] {| Content := [] |} [] (fun _ => None)) = Panicked.
Proof.
  apply (proj2 (empty_content_panics coder [] {| Content := [] |} [] (fun _ => None) eq_refl)).
  reflexivity.
Defined.

Module TransportFacts.
Import Transport.

Lemma step_handler_frame s i s' :
  step_handler s i = Some s' ->
  loop_pc s' = loop_pc s /\ written s' = written s /\
  loop_labels (trace s') = loop_labels (trace s).
Proof.
  unfold step_handler.
  destruct (nth_error _ _) as [[| | |]|]; try discriminate.
  - destruct (Nat.ltb _ _); intros H; inversion H; subst; auto.
  - destruct (Nat.ltb _ _); intros H; inversion H; subst; auto.
  - destruct (doneChan s); intros H; inversion H; subst; auto.
Qed.

Lemma step_loop_inv env s s' : loop_inv s -> step_loop env s = Some s' -> loop_inv s'.
Proof.
  unfold loop_inv, loop_labels, step_loop.
  destruct (loop_pc s) as [|r|err|e] eqn:Hpc; cbn zeta.
  - destruct (requestChan s) as [|r rest]; [discriminate|].
    intros Hc H; inversion H; subst; clear H; cbn.
    destruct (body_err env r); cbn; eauto.
  - destruct (responseChan s) as [|w rest]; [discriminate|].
    intros (ll' & Hll & Hc) H; inversion H; subst; clear H; cbn.
    exists w, r, ll'. rewrite Hll, Nat.eqb_refl. auto.
  - destruct (Nat.ltb _ _); [|discriminate].
    intros (w & r & ll' & Hll & Hc & _) H; inversion H; subst; clear H; cbn.
    rewrite Hll. constructor. exact Hc.
  - discriminate.
Qed.

Lemma step_thread_inv env s t s' : loop_inv s -> step_thread env s t = Some s' -> loop_inv s'.
Proof.
  destruct t as [|i]; cbn; [apply step_loop_inv|].
  intros Hinv H. destruct (step_handler_frame _ _ _ H) as (Hpc & Hw & Hl).
  unfold loop_inv in *. cbv zeta in *. rewrite Hpc, Hl, Hw. exact Hinv.
Qed.

Lemma run_inv env s sched : loop_inv s -> loop_inv (run env s sched).
Proof.
  revert s. induction sched as [|t rest IH]; intros s Hs; cbn; [exact Hs|].
  destruct (step_thread env s t) eqn:H; apply IH; [|exact Hs].
  exact (step_thread_inv _ _ _ _ Hs H).
Qed.




(** C5: on the network transport, every cycle of the loop goroutine is:
    read a request, write the reply to it with status 200 and
    [Content-Type: text/plain] as the writer's whole content, raise the
    completion signal once, whatever the write reported, and go back to
    [readFromNetwork]. The completion step does not look at the write's
    outcome, and [Run] discards the error [writeOutput] returns: after a
    zero-tool response its iteration continues with [takeInput] set. *)
Theorem write_failure_still_signals :
  (forall env n sched, loop_inv (run env (init n) sched)) /\
  (forall env s err, loop_pc s = LSignal err -> length (doneChan s) < chan_cap ->
     exists s', step_loop env s = Some s' /\ loop_pc s' = LRead /\
                doneChan s' = doneChan s ++ [true] /\ trace s' = LbDone :: trace s) /\
  (forall a msgs response sched wr,
     tool_uses (Content response) = [] -> Content response <> [] ->
     snd (after_infer a msgs response sched wr)
     = Continue {| takeInput := true; messages := msgs ++ [ToParam response] |}).
Proof.
  split; [|split].
  - intros env n sched. apply run_inv. unfold loop_inv. cbn. constructor.
  - intros env s err Hpc Hlen. unfold step_loop. rewrite Hpc.
    apply Nat.ltb_lt in Hlen. rewrite Hlen. eexists. repeat split.
  - intros a msgs response sched wr Ht Hc.
    rewrite (after_infer_no_tools _ _ _ _ _ Ht).
    destruct (Content response); [contradiction|reflexivity].
Qed.

Lemma write_failure_still_signals_witness :
  (exists s', step_loop env_write_fails (run env_write_fails (init 1) one_request) = Some s' /\
              loop_pc s' = LRead /\
              doneChan s' = doneChan (run env_write_fails (init 1) one_request) ++ [true] /\
              trace s' = LbDone :: trace (run env_write_fails (init 1) one_request)) /\
  snd (after_infer coder [] {| Content := [TextBlock "first"; TextBlock "second"] |} []
         (fun _ => Some (mkError "broken pipe")))
  = Continue {| takeInput := true;
                messages := [] ++ [ToParam {| Content := [TextBlock "first"; TextBlock "second"] |}] |}.
Proof.
  split.
  - apply (proj1 (proj2 write_failure_still_signals) env_write_fails _
             (Some (mkError "broken pipe"))).
    + reflexivity.
    + cbn. unfold chan_cap. lia.
  - apply (proj2 (proj2 write_failure_still_signals)).
    + reflexivity.
    + discriminate.
Defined.

(** C9: two concurrent POST requests are not serialized: under the
    interleaving [two_requests_race], handler 1 takes the completion
    signal of the cycle that answered request 0 and returns before the
    loop has read request 1, with nothing written on its writer; the loop
    writes the reply to request 1 afterwards, on a writer whose handler
    has returned, and the system is then stuck with every channel empty. *)
Theorem concurrent_requests_misanswered :
  let s := run env_ok (init 2) two_requests_race in
  handlers s = [HReturned (Some (reply 0)); HReturned None] /\
  written s 1 = Some (reply 1) /\
  trace s = [LbReturn 0 (Some (reply 0)); LbDone; LbWrite 1 (reply 1) None; LbRead 1;
             LbReturn 1 None; LbDone; LbWrite 0 (reply 0) None; LbRead 0] /\
  loop_pc s = LRead /\ requestChan s = [] /\ responseChan s = [] /\ doneChan s = [] /\
  step_loop env_ok s = None /\ (forall i, step_handler s i = None).
Proof.
  cbv zeta.
  assert (Hh : handlers (run env_ok (init 2) two_requests_race)
               = [HReturned (Some (reply 0)); HReturned None]) by reflexivity.
  repeat split; try reflexivity.
  intros i. unfold step_handler. rewrite Hh.
  destruct i as [|[|[|i]]]; reflexivity.
Qed.

End TransportFacts.

(* ------------------------------------------------------------------ *)
(** ** Tool lookup and invocation *)

Lemma find_app_skip (l1 l2 : list ToolDefinition) t :
  Forall (fun u => Name u <> Name t) l1 ->
  find (fun u => String.eqb (Name u) (Name t)) (l1 ++ t :: l2) = Some t.
Proof.
  induction 1 as [|u l1 Hu _ IH]; cbn.
  - rewrite String.eqb_refl. reflexivity.
  - apply String.eqb_neq in Hu. rewrite Hu. exact IH.
Qed.

(** When several registered tools share a name, [ExecuteTool] runs the
    first of them only: the result and the invocation log are those of
    the first tool with that name, whatever follows it in the list. *)
Theorem ExecuteTool_first_match a l1 t l2 i inp :
  tools a = l1 ++ t :: l2 ->
  Forall (fun u => Name u <> Name t) l1 ->
  ExecuteTool a i (Name t) inp
  = (NewToolResultBlock i
       (match Function t inp with (_, Some e) => Error e | (r, None) => r end)
       (match snd (Function t inp) with Some _ => true | None => false end),
     [Name t]).
Proof.
  intros Ht Hl. unfold ExecuteTool. rewrite Ht, (find_app_skip _ _ _ Hl).
  destruct (Function t inp) as [r [e|]]; reflexivity.
Qed.

Lemma ExecuteTool_first_match_witness :
  ExecuteTool coder_shadowed "t1" "read_file" "go.mod"
  = (NewToolResultBlock "t1" "module agent" false, ["read_file"]).
Proof.
  refine (ExecuteTool_first_match coder_shadowed [list_files_tool] read_file_tool
            [shadowed_read_file] "t1" "go.mod" eq_refl _).
  constructor; [cbn; discriminate|constructor].
Defined.

Lemma ExecuteTool_log a i n inp :
  snd (ExecuteTool a i n inp) = if registered a n then [n] else [].
Proof.
  unfold ExecuteTool, registered.
  destruct (find (fun t => String.eqb (Name t) n) (tools a)) as [t|] eqn:Hf.
  - apply find_some in Hf. destruct Hf as [Hin Heq].
    apply String.eqb_eq in Heq.
    assert (Hex : existsb (fun t => String.eqb (Name t) n) (tools a) = true).
    { apply existsb_exists. exists t. split; [exact Hin|]. rewrite Heq. apply String.eqb_refl. }
    rewrite Hex, <- Heq. destruct (Function t inp) as [r [e|]]; reflexivity.
  - destruct (existsb (fun t => String.eqb (Name t) n) (tools a)) eqn:Hex; [|reflexivity].
    apply existsb_exists in Hex. destruct Hex as [t [Hin Heq]].
    exfalso. pose proof (find_none _ _ Hf t Hin) as Hn. congruence.
Qed.

Lemma tool_calls_of_app l1 l2 : tool_calls_of (l1 ++ l2) = tool_calls_of l1 ++ tool_calls_of l2.
Proof. apply flat_map_app. Qed.

Lemma tool_calls_of_spawns (calls : list (string * string * string)) :
  tool_calls_of (map (fun '(i, n, _) => EvSpawn i n) calls) = [].
Proof. induction calls as [|[[? ?] ?] c IH]; [reflexivity|exact IH]. Qed.

Lemma tool_calls_of_calls l : tool_calls_of (map EvToolCall l) = l.
Proof. induction l as [|x l IH]; [reflexivity|cbn; f_equal; exact IH]. Qed.

(** In one iteration after the model's response, each tool function runs
    once per invocation request whose name is registered, and nothing
    else runs: the names of the tool functions invoked are a permutation
    of the names of those requests (a request for an unknown name invokes
    nothing). *)
Theorem after_infer_invocations a msgs response sched wr :
  Permutation (tool_calls_of (fst (after_infer a msgs response sched wr)))
    (flat_map (fun '(i, n, inp) => if registered a n then [n] else [])
       (tool_uses (Content response))).
Proof.
  unfold after_infer. cbv zeta.
  set (calls := tool_uses (Content response)).
  set (runs := map (fun '(i, n, inp) => ExecuteTool a i n inp) calls).
  assert (Hp : Permutation (recv_n (length calls) sched runs) runs)
    by (apply recv_n_perm; unfold runs; apply length_map).
  assert (Hgoal : Permutation (flat_map snd (recv_n (length calls) sched runs))
            (flat_map (fun '(i, n, inp) => if registered a n then [n] else []) calls)).
  { rewrite (Permutation_flat_map snd Hp). unfold runs. rewrite flat_map_concat_map, map_map.
    rewrite flat_map_concat_map. apply Permutation_refl'. f_equal. apply map_ext.
    intros [[i n] inp]. apply ExecuteTool_log. }
  destruct (map fst _); [destruct (Content response)|]; cbn [fst];
    rewrite ?tool_calls_of_app; change (tool_calls_of (EvAppend (ToParam response) :: ?l))
      with (tool_calls_of l);
    rewrite ?tool_calls_of_app, tool_calls_of_spawns, tool_calls_of_calls; cbn;
    rewrite ?app_nil_r; exact Hgoal.
Qed.

(* ------------------------------------------------------------------ *)
(** ** The transcript [Run] sends to the model *)

Lemma alternates_from_snoc k l m :
  alternates_from k (l ++ [m])
  = alternates_from k l && Role_eqb (role m) (expected_role (k + length l)).
Proof.
  revert k. induction l as [|x l IH]; intros k; cbn.
  - rewrite Nat.add_0_r, andb_true_r. reflexivity.
  - rewrite IH, Nat.add_succ_r, andb_assoc. reflexivity.
Qed.

Lemma even_snoc {A} (l : list A) x : Nat.even (length (l ++ [x])) = negb (Nat.even (length l)).
Proof. rewrite length_app, Nat.add_1_r, Nat.even_succ. reflexivity. Qed.

Lemma after_infer_continue a msgs response sched wr :
  match snd (after_infer a msgs response sched wr) with
  | Continue st' =>
      (messages st' = msgs ++ [ToParam response] /\ takeInput st' = true) \/
      (exists rs, messages st' = msgs ++ [ToParam response; NewUserMessage rs] /\
                  takeInput st' = false)
  | _ => True
  end.
Proof.
  unfold after_infer. cbv zeta.
  destruct (map fst _); [destruct (Content response)|]; cbn.
  - exact I.
  - left. auto.
  - right. eexists. split; [rewrite <- app_assoc; reflexivity|reflexivity].
Qed.

Lemma after_infer_no_infer a msgs response sched wr ms :
  ~ In (EvInfer ms) (fst (after_infer a msgs response sched wr)).
Proof.
  unfold after_infer. cbv zeta.
  destruct (map fst _); [destruct (Content response)|]; cbn [fst]; intros H;
    split_in H.
Qed.

Lemma after_infer_inv a msgs response sched wr :
  alternates_from 0 msgs = true -> Nat.even (length msgs) = false ->
  match snd (after_infer a msgs response sched wr) with
  | Continue st' => transcript_inv st'
  | _ => True
  end.
Proof.
  intros Ha He. pose proof (after_infer_continue a msgs response sched wr) as H.
  destruct (snd _) as [st'| |]; try exact I.
  unfold transcript_inv. destruct H as [[-> ->]|[rs [-> ->]]].
  - rewrite alternates_from_snoc, Ha, even_snoc, He. cbn.
    unfold expected_role. rewrite He. auto.
  - change [ToParam response; NewUserMessage rs] with ([ToParam response] ++ [NewUserMessage rs]).
    rewrite app_assoc, alternates_from_snoc, alternates_from_snoc, Ha, even_snoc, even_snoc, He.
    rewrite length_app. cbn. unfold expected_role.
    rewrite Nat.add_1_r, Nat.even_succ. unfold Nat.odd. rewrite He. auto.
Qed.

Lemma step_transcript a st o :
  transcript_inv st ->
  (forall ms, In (EvInfer ms) (fst (step a st o)) ->
     alternates_from 0 ms = true /\ Nat.odd (length ms) = true) /\
  match snd (step a st o) with
  | Continue st' => transcript_inv st'
  | _ => True
  end.
Proof.
  intros [Ha He]. unfold step.
  destruct (takeInput st) eqn:Ht; [destruct (o_read o) as [input|e]|]; cbn.
  - set (msgs := messages st ++ [NewUserMessage [NewTextBlock input]]).
    assert (Hm : alternates_from 0 msgs = true /\ Nat.even (length msgs) = false).
    { unfold msgs. rewrite alternates_from_snoc, Ha, even_snoc, He. cbn.
      unfold expected_role. rewrite He. auto. }
    destruct Hm as [Hma Hme].
    destruct (o_infer o msgs) as [resp|e]; cbn.
    + pose proof (after_infer_inv a msgs resp (o_sched o) (o_write o) Hma Hme) as Hi.
      pose proof (after_infer_no_infer a msgs resp (o_sched o) (o_write o)) as Hn.
      destruct (after_infer _ _ _ _ _) as [ev2 out]; cbn in *. split; [|exact Hi].
      intros ms H.
      destruct H as [H|[H|[H|H]]]; try discriminate H.
      * injection H as <-. unfold Nat.odd. rewrite Hme. auto.
      * exfalso. exact (Hn ms H).
    + split; [|exact I]. intros ms H.
      destruct H as [H|[H|[H|[]]]]; try discriminate H.
      injection H as <-. unfold Nat.odd. rewrite Hme. auto.
  - split; [intros ms [H|[]]; discriminate H|exact I].
  - destruct (o_infer o (messages st)) as [resp|e]; cbn.
    + pose proof (after_infer_inv a (messages st) resp (o_sched o) (o_write o) Ha He) as Hi.
      pose proof (after_infer_no_infer a (messages st) resp (o_sched o) (o_write o)) as Hn.
      destruct (after_infer _ _ _ _ _) as [ev2 out]; cbn in *. split; [|exact Hi].
      intros ms [H|H]; [|exfalso; apply (Hn ms); exact H].
      injection H as <-. unfold Nat.odd. rewrite He. auto.
    + split; [|exact I]. intros ms [H|[]].
      injection H as <-. unfold Nat.odd. rewrite He. auto.
Qed.

(** Every transcript [Run] sends to the model alternates between user and
    assistant turns, starting with a user turn and ending with one (its
    length is odd): the user's input or the fed-back tool results always
    come right after the model's previous response, and the model is never
    called on a transcript that ends with its own turn. *)
Theorem Run_transcript_alternates a os ms :
  In (EvInfer ms) (fst (Run a os)) ->
  alternates_from 0 ms = true /\ Nat.odd (length ms) = true.
Proof.
  unfold Run.
  assert (H0 : transcript_inv {| takeInput := true; messages := [] |}) by (split; reflexivity).
  revert H0. generalize {| takeInput := true; messages := [] |}.
  induction os as [|o os IH]; intros st Hst; cbn; [intros []|].
  destruct (step_transcript a st o Hst) as [Hev Hnext].
  destruct (step a st o) as [evs out]; cbn in *.
  destruct out as [st'| |]; cbn; [|exact (Hev ms)|exact (Hev ms)].
  destruct (run_from a st' os) as [evs' r] eqn:Hr; cbn.
  intros H. apply in_app_or in H. destruct H as [H|H]; [exact (Hev ms H)|].
  specialize (IH st' Hnext). rewrite Hr in IH. exact (IH H).
Qed.

Lemma Run_transcript_alternates_witness :
  alternates_from 0
    [NewUserMessage [NewTextBlock "list the files"]; ToParam two_calls;
     NewUserMessage [ToolResultBlockParam "t1" "go.mod agent.go" false;
                     ToolResultBlockParam "t2" "module agent" false]] = true /\
  Nat.odd 3 = true.
Proof.
  apply (Run_transcript_alternates coder [tool_turn_oracle; done_oracle]).
  vm_compute. repeat (first [left; reflexivity | right]).
Defined.

(* ------------------------------------------------------------------ *)
(** ** Completion signals on the network transport *)

Module TransportSignals.
Import Transport TransportCount.






End TransportSignals.

(* ------------------------------------------------------------------ *)
(** ** [formatPermissions] and [formatSize] *)

Module CoderFacts.
Import GoStrings Coder.

Lemma bit_char_low mode mask c :
  Z.land 511 mask = mask -> bit_char (Z.land mode 511) mask c = bit_char mode mask c.
Proof. intros H. unfold bit_char. rewrite <- Z.land_assoc, H. reflexivity. Qed.

Lemma perm_value_low mode :
  perm_value (formatPermissions mode) = perm_value (formatPermissions (Z.land mode 511)).
Proof.
  unfold perm_value, formatPermissions. rewrite !list_ascii_of_string_of_list_ascii. cbn [tl].
  rewrite !bit_char_low by reflexivity. reflexivity.
Qed.

Lemma perm_value_table :
  forallb (fun k => Z.eqb (perm_value (formatPermissions (Z.of_nat k))) (Z.of_nat k))
    (seq 0 512) = true.
Proof. vm_compute. reflexivity. Qed.

(** [formatPermissions] always yields ten characters, and its last nine
    give back the nine permission bits of the mode exactly (read as bits,
    a letter for a set bit and [-] for a clear one, owner read first):
    the listing loses no permission information and shows no other bit
    there. *)
Theorem formatPermissions_roundtrip mode :
  String.length (formatPermissions mode) = 10 /\
  perm_value (formatPermissions mode) = Z.land mode 511.
Proof.
  split; [reflexivity|].
  rewrite perm_value_low.
  assert (Hr : (0 <= Z.land mode 511 < 512)%Z).
  { change 511%Z with (Z.ones 9). rewrite Z.land_ones by lia.
    apply Z.mod_pos_bound. reflexivity. }
  set (x := Z.land mode 511) in *.
  pose proof perm_value_table as T. rewrite forallb_forall in T.
  specialize (T (Z.to_nat x)). rewrite Z2Nat.id in T by lia.
  apply Z.eqb_eq, T, in_seq. lia.
Qed.

Lemma log2_quot_1024 n :
  (1024 <= n)%Z -> Z.log2 (Z.quot n 1024) = (Z.log2 n - 10)%Z.
Proof.
  intros Hn. rewrite Z.quot_div_nonneg by lia.
  change 1024%Z with (2 ^ 10)%Z. rewrite <- Z.shiftr_div_pow2 by lia.
  rewrite Z.log2_shiftr by lia.
  assert (10 <= Z.log2 n)%Z.
  { change 10%Z with (Z.log2 (2 ^ 10)). apply Z.log2_le_mono. lia. }
  lia.
Qed.

Lemma unit_loop_spec size : forall fuel n div exp,
  (0 <= size)%Z ->
  div = (1024 ^ Z.of_nat (S exp))%Z -> n = (size / div)%Z -> (1 <= n)%Z ->
  (Z.log2 n < Z.of_nat fuel)%Z ->
  let '(d, e) := unit_loop fuel n div exp in
  d = (1024 ^ Z.of_nat (S e))%Z /\ (1 <= size / d < 1024)%Z.
Proof.
  induction fuel as [|f IH]; intros n div exp Hs Hd Hn H1 Hf; cbn [unit_loop].
  - pose proof (Z.log2_nonneg n). lia.
  - assert (Hdpos : (0 < div)%Z) by (rewrite Hd; apply Z.pow_pos_nonneg; lia).
    destruct (Z.leb_spec 1024 n) as [Hge|Hlt].
    + apply IH; [exact Hs| | | |].
      * rewrite Hd, (Nat2Z.inj_succ (S exp)), Z.pow_succ_r by lia. ring.
      * rewrite Z.quot_div_nonneg, Hn, Z.div_div by lia. reflexivity.
      * rewrite Z.quot_div_nonneg by lia. apply Z.div_le_lower_bound; lia.
      * rewrite log2_quot_1024 by exact Hge. rewrite Nat2Z.inj_succ in Hf. lia.
    + rewrite <- Hn. auto.
Qed.

(** For every [int64] size [formatSize] returns without panicking: below
    1024 it prints the number, and from 1024 on it picks [div = 1024^(k+1)]
    with unit letter [k] of ["KMGTPE"] ([k <= 5], so the index is in
    bounds), such that [1 <= size / div < 1024] (a mantissa of at most
    three integer digits) and [div <= size] (so [div *= unit] never
    overflows). *)
Theorem formatSize_units fmt_float1 size :
  (size < 2 ^ 63)%Z ->
  (size < 1024 -> formatSize fmt_float1 size
                  = Some (DecimalString.NilZero.string_of_int (Z.to_int size)))%Z /\
  (1024 <= size ->
   exists div k c,
     formatSize_unit size = (div, k) /\ (k <= 5)%nat /\
     div = 1024 ^ Z.of_nat (S k) /\ 1 <= size / div < 1024 /\ div <= size /\
     String.get k "KMGTPE" = Some c /\
     formatSize fmt_float1 size = Some (fmt_float1 size div ++ String c "")%string)%Z.
Proof.
  intros Hmax. split.
  - intros Hlt. unfold formatSize. destruct (Z.ltb_spec size 1024); [reflexivity|lia].
  - intros Hge.
    assert (Hq : Z.quot size 1024 = (size / 1024)%Z) by (apply Z.quot_div_nonneg; lia).
    assert (Hu := unit_loop_spec size (S (Z.to_nat (Z.log2 (Z.quot size 1024))))
                    (Z.quot size 1024) 1024 0).
    destruct (unit_loop _ _ _ _) as [div k] eqn:Hk.
    destruct Hu as [Hd Hb].
    { lia. }
    { reflexivity. }
    { rewrite Hq. reflexivity. }
    { rewrite Hq. apply Z.div_le_lower_bound; lia. }
    { rewrite Nat2Z.inj_succ, Z2Nat.id by apply Z.log2_nonneg. lia. }
    assert (Hdpos : (0 < div)%Z) by (rewrite Hd; apply Z.pow_pos_nonneg; lia).
    assert (Hle : (div <= size)%Z).
    { destruct (Z.le_gt_cases div size) as [?|Hgt]; [assumption|].
      rewrite Z.div_small in Hb by lia. lia. }
    assert (Hk5 : (k <= 5)%nat).
    { destruct (Nat.le_gt_cases k 5) as [?|Hgt]; [assumption|exfalso].
      assert (H7 : (1024 ^ 7 <= div)%Z).
      { rewrite Hd. apply Z.pow_le_mono_r; lia. }
      assert (Hc : (2 ^ 63 < 1024 ^ 7)%Z) by reflexivity.
      lia. }
    assert (Hget : exists c, String.get k "KMGTPE" = Some c).
    { destruct k as [|[|[|[|[|[|k]]]]]]; [eexists; reflexivity ..|lia]. }
    destruct Hget as [c Hc].
    exists div, k, c. unfold formatSize_unit.
    split; [exact Hk|]. split; [exact Hk5|]. split; [exact Hd|]. split; [exact Hb|].
    split; [exact Hle|]. split; [exact Hc|].
    unfold formatSize, formatSize_unit. rewrite Hk, Hc.
    destruct (Z.ltb_spec size 1024); [lia|reflexivity].
Qed.

Lemma formatSize_units_witness :
  (1536 < 2 ^ 63)%Z /\
  (1536 < 1024 -> formatSize (fun _ _ => "1.5") 1536
                  = Some (DecimalString.NilZero.string_of_int (Z.to_int 1536)))%Z /\
  (1024 <= 1536 ->
   exists div k c,
     formatSize_unit 1536 = (div, k) /\ (k <= 5)%nat /\
     div = 1024 ^ Z.of_nat (S k) /\ 1 <= 1536 / div < 1024 /\ div <= 1536 /\
     String.get k "KMGTPE" = Some c /\
     formatSize (fun _ _ => "1.5") 1536 = Some ((fun _ _ => "1.5") 1536 div ++ String c "")%string)%Z.
Proof.
  assert (H : (1536 < 2 ^ 63)%Z) by reflexivity.
  split; [exact H|]. exact (formatSize_units (fun _ _ => "1.5") 1536 H).
Defined.

End CoderFacts.

(* ------------------------------------------------------------------ *)
(** ** The two agents' tools and the coder's call to the doc agent *)

Module AgentWiring.
Import GoStrings Coder.

(** What [ExecuteTool] does for a tool name on each agent: the coder agent
    runs [read_file], [write_file], [list_files] and
    [invoke_documentation_agent] (each through its own function), the doc
    agent only [search_go_documentation]; every other name, among them
    [execute_command], which is defined in coder_agent.go but not in
    [CoderTools], and each agent's name for the other's tools, gets
    "Tool not found" and runs nothing. *)
Theorem agent_tool_dispatch impl schema i n inp :
  ExecuteTool (NewCoderAgent impl schema) i n inp
  = (if existsb (fun m => String.eqb m n)
          ["read_file"; "write_file"; "list_files"; "invoke_documentation_agent"]
     then match impl n inp with
          | (_, Some e) => (NewToolResultBlock i (Error e) true, [n])
          | (r, None) => (NewToolResultBlock i r false, [n])
          end
     else (NewToolResultBlock i "Tool not found" true, [])) /\
  ExecuteTool (NewDocAgent impl schema) i n inp
  = (if String.eqb "search_go_documentation" n
     then match impl n inp with
          | (_, Some e) => (NewToolResultBlock i (Error e) true, [n])
          | (r, None) => (NewToolResultBlock i r false, [n])
          end
     else (NewToolResultBlock i "Tool not found" true, [])).
Proof.
  unfold ExecuteTool, NewCoderAgent, NewDocAgent, CoderTools, DocTools,
    ReadFileDefinition, WriteFileDefinition, ListFilesDefinition,
    InvokeDocumentationAgentDefinition, SearchGoDocumentationDefinition, mk_tool.
  cbn [tools find Name Function existsb orb].
  split;
    repeat match goal with
    | |- context [String.eqb ?m n] =>
        destruct (String.eqb_spec m n) as [<-|?]; cbn [Name Function orb]
    end;
    try reflexivity;
    destruct (impl _ inp) as [r [e|]]; reflexivity.
Qed.






End AgentWiring.

(* ------------------------------------------------------------------ *)
(** ** [readFromCli] as the loop's input *)

Module CliInput.
Import GoStrings Coder.

Lemma ReadString_no_newline line :
  ~ In "010"%char (list_ascii_of_string line) -> ReadString line = (line, "", Some EOF).
Proof.
  induction line as [|c line IH]; cbn; intros Hn; [reflexivity|].
  destruct (Ascii.eqb_spec c "010") as [->|_]; [tauto|].
  rewrite IH by tauto. reflexivity.
Qed.

(** When what is left on stdin has no newline (the user ends input with
    Ctrl-D after a partial line, or stdin is at its end), [readFromCli]
    returns [io.EOF] with the text, and [Run] returns [("", EOF)] at once:
    the unterminated text is never appended to the transcript and the
    model is not called. *)
Theorem cli_unterminated_line_dropped a line ms inf os :
  ~ In "010"%char (list_ascii_of_string line) ->
  run_cli a line {| takeInput := true; messages := ms |} (inf :: os)
  = ([EvRead], Some (Returned "" EOF)).
Proof.
  intros Hn. cbn [run_cli]. unfold readFromCli. rewrite (ReadString_no_newline line Hn).
  reflexivity.
Qed.

Lemma cli_unterminated_line_dropped_witness :
  run_cli coder "  list the files" {| takeInput := true; messages := [] |}
    [fun _ => inl two_calls]
  = ([EvRead], Some (Returned "" EOF)).
Proof.
  apply cli_unterminated_line_dropped. vm_compute. intuition discriminate.
Defined.

End CliInput.
